(** * An in-memory key-value store with an undo history (src/main.py)

    The store of [class InMemoryDB] keeps three fields: the dictionary
    [_db] from keys to values, the [defaultdict(int)] [_counts] from values
    to the number of keys holding them, and the list [_history] of saved
    (dictionary, counter) pairs.  Python [str] is modelled as [string]
    (a sequence of 8-bit characters, compared character by character, which
    is the code-point order of Python on ASCII text and on UTF-8 encodings),
    Python [int] as [Z], [dict] as [gmap], [list] as [list] with the last
    element of the Python list at the head.

    [deepcopy] produces a structurally independent copy; the values here are
    immutable, so the copy is the value itself and no aliasing can arise. *)

From stdpp Require Import base numbers option list gmap fin_maps strings
  sorting pretty.
From Stdlib Require Import ZArith Lia Ascii.

Local Open Scope string_scope.
Local Open Scope Z_scope.

(** ** Standard output *)

(** Every [print] call appends one line to standard output. *)
Definition stdout := list string.

(** ** The store *)

Module InMemoryDB.

Definition snapshot : Type := gmap string string * gmap string Z.

Record t := mk {
  _db : gmap string string;
  _counts : gmap string Z;
  _history : list snapshot
}.

(** [__init__] *)
Definition init : t :=
  {| _db := ∅; _counts := ∅; _history := [] |}.

(** Reading [d[v]] of a [defaultdict(int)]: a missing entry reads as 0
    (and is created with that value by the write that follows). *)
Definition read (c : gmap string Z) (v : string) : Z :=
  default 0 (c !! v).

(** [c[v] += n] on a [defaultdict(int)]. *)
Definition add (c : gmap string Z) (v : string) (n : Z) : gmap string Z :=
  <[v := read c v + n]> c.

(** Truth value of a string: the empty string is false. *)
Definition truthy (s : string) : bool :=
  match s with
  | EmptyString => false
  | String _ _ => true
  end.

(** [self._history.append((deepcopy(self._db), deepcopy(self._counts)))] *)
Definition _save_state (s : t) : t :=
  {| _db := _db s; _counts := _counts s;
     _history := (_db s, _counts s) :: _history s |}.

Definition set (key value : string) (s : t) : t :=
  let s := _save_state s in
  let old_value := _db s !! key in
  let c :=
    match old_value with
    | Some o => if truthy o then add (_counts s) o (-1) else _counts s
    | None => _counts s
    end in
  {| _db := <[key := value]> (_db s);
     _counts := add c value 1;
     _history := _history s |}.

Definition get (key : string) (s : t) : option string :=
  _db s !! key.

Definition unset (key : string) (s : t) : t :=
  match _db s !! key with
  | Some old_value =>
      let s := _save_state s in
      {| _db := delete key (_db s);
         _counts := add (_counts s) old_value (-1);
         _history := _history s |}
  | None => s
  end.

(** The number [self._counts.get(value, 0)] that [counts] prints;
    [dict.get] never creates an entry. *)
Definition counts_value (value : string) (s : t) : Z :=
  default 0 (_counts s !! value).

Definition counts (value : string) (s : t) : stdout :=
  [pretty (counts_value value s)].

(** [[k for k, v in self._db.items() if v == value]], in the iteration
    order of the map. *)
Definition matching_keys (value : string) (s : t) : list string :=
  (filter (λ kv, kv.2 = value) (map_to_list (_db s))).*1.

(** [sorted(keys)]: ascending in the order of [str]. *)
Definition sorted (keys : list string) : list string :=
  merge_sort String.le keys.

(** [" ".join(l)] *)
Definition join (l : list string) : string := String.concat " " l.

Definition find (value : string) (s : t) : stdout :=
  let keys := matching_keys value s in
  match keys with
  | [] => ["NULL"]
  | _ :: _ => [join (sorted keys)]
  end.

Definition begin (s : t) : t :=
  {| _db := _db s; _counts := _counts s;
     _history := (_db s, _counts s) :: _history s |}.

Definition rollback (s : t) : t * stdout :=
  match _history s with
  | [] => (s, ["NO TRANSACTION"])
  | (d, c) :: h => ({| _db := d; _counts := c; _history := h |}, [])
  end.

Definition commit (s : t) : t * stdout :=
  match _history s with
  | [] => (s, ["NO TRANSACTION"])
  | _ :: _ => ({| _db := _db s; _counts := _counts s; _history := [] |}, [])
  end.

End InMemoryDB.

(** ** Commands *)

(** The subclasses of [Command]; every command object other than
    [EndCommand] and [UnknownCommand] holds a reference to the one store of
    the session, which [execute] receives here as its state. *)
Inductive Command :=
  | SetCommand (key value : string)
  | GetCommand (key : string)
  | UnsetCommand (key : string)
  | CountsCommand (value : string)
  | FindCommand (value : string)
  | BeginCommand
  | RollbackCommand
  | CommitCommand
  | EndCommand
  | UnknownCommand.

(** What [execute] does: it returns, with the store and the lines it
    printed, or it raises [SystemExit]. *)
Inductive result :=
  | Returns (s : InMemoryDB.t) (out : stdout)
  | Raises_SystemExit.

Definition execute (c : Command) (s : InMemoryDB.t) : result :=
  match c with
  | SetCommand key value => Returns (InMemoryDB.set key value s) []
  | GetCommand key =>
      let value := InMemoryDB.get key s in
      Returns s [match value with Some v => v | None => "NULL" end]
  | UnsetCommand key => Returns (InMemoryDB.unset key s) []
  | CountsCommand value => Returns s (InMemoryDB.counts value s)
  | FindCommand value => Returns s (InMemoryDB.find value s)
  | BeginCommand => Returns (InMemoryDB.begin s) []
  | RollbackCommand => let '(s', out) := InMemoryDB.rollback s in Returns s' out
  | CommitCommand => let '(s', out) := InMemoryDB.commit s in Returns s' out
  | EndCommand => Raises_SystemExit
  | UnknownCommand => Returns s ["UNKNOWN COMMAND"]
  end.

(** The commands whose [execute] calls a method of the store. *)
Definition calls_store (c : Command) : bool :=
  match c with
  | EndCommand | UnknownCommand => false
  | _ => true
  end.

(** ** The parser *)

Module CommandParser.

(** White space of [str.split()] within ASCII: tab, line feed, vertical
    tab, form feed, carriage return, the four separators 28..31, space.
    The white space of [str] beyond ASCII (U+0085, U+00A0, U+1680,
    U+2000..U+200A, U+2028, U+2029, U+202F, U+205F, U+3000) is not covered:
    [split] below is [str.split] on lines of ASCII characters. *)
Definition is_space (a : ascii) : bool :=
  let n := nat_of_ascii a in
  ((9 <=? n)%nat && (n <=? 13)%nat) || ((28 <=? n)%nat && (n <=? 32)%nat).

(** The word read so far, kept reversed, as a list of zero or one words. *)
Definition flush (cur : string) : list string :=
  match cur with
  | EmptyString => []
  | String _ _ => [String.rev cur]
  end.

Fixpoint split_from (cur : string) (line : string) : list string :=
  match line with
  | EmptyString => flush cur
  | String a rest =>
      if is_space a then (flush cur ++ split_from EmptyString rest)%list
      else split_from (String a cur) rest
  end.

(** [line.strip().split()]: the maximal runs of characters that are not
    white space; leading and trailing white space yields no empty word,
    so the [strip] before it changes nothing. *)
Definition split (line : string) : list string :=
  split_from EmptyString line.

Definition upper_ascii (a : ascii) : ascii :=
  let n := nat_of_ascii a in
  if ((97 <=? n)%nat && (n <=? 122)%nat)%bool then ascii_of_nat (n - 32)
  else a.

(** [str.upper()] on ASCII text; the case mappings of [str] beyond ASCII
    (such as U+0131 to I and U+017F to S) are not covered. *)
Fixpoint upper (s : string) : string :=
  match s with
  | EmptyString => EmptyString
  | String a rest => String (upper_ascii a) (upper rest)
  end.

(** [parts[i]], used only under a test of [len(parts)]. *)
Definition nth_part (parts : list string) (i : nat) : string :=
  default "" (parts !! i).

Definition command_map : gmap string (list string → Command) :=
  <["SET" := λ parts,
      if decide (length parts = 3%nat)
      then SetCommand (nth_part parts 1) (nth_part parts 2)
      else UnknownCommand]>
  (<["GET" := λ parts,
      if decide (length parts = 2%nat) then GetCommand (nth_part parts 1)
      else UnknownCommand]>
  (<["UNSET" := λ parts,
      if decide (length parts = 2%nat) then UnsetCommand (nth_part parts 1)
      else UnknownCommand]>
  (<["COUNTS" := λ parts,
      if decide (length parts = 2%nat) then CountsCommand (nth_part parts 1)
      else UnknownCommand]>
  (<["FIND" := λ parts,
      if decide (length parts = 2%nat) then FindCommand (nth_part parts 1)
      else UnknownCommand]>
  (<["BEGIN" := λ parts, BeginCommand]>
  (<["ROLLBACK" := λ parts, RollbackCommand]>
  (<["COMMIT" := λ parts, CommitCommand]>
  (<["END" := λ parts, EndCommand]> ∅)))))))).

(** [self.command_map.get(cmd, lambda parts: UnknownCommand())(parts)] *)
Definition dispatch (cmd : string) (parts : list string) : Command :=
  default (λ parts, UnknownCommand) (command_map !! cmd) parts.

Definition parse (line : string) : option Command :=
  let parts := split line in
  match parts with
  | [] => None
  | p0 :: _ => let cmd := upper p0 in Some (dispatch cmd parts)
  end.

End CommandParser.

(** ** The session loop *)

(** [main] on the lines that [input] delivers, the store being created
    fresh by [session]; the prompt itself is not recorded.  When the lines
    run out [input] raises [EOFError] and the farewell line is printed. *)
Fixpoint main_loop (lines : list string) (s : InMemoryDB.t)
  : InMemoryDB.t * stdout :=
  match lines with
  | [] => (s, [String "010" "Завершено по EOF."])
  | line :: rest =>
      match CommandParser.parse line with
      | None => main_loop rest s
      | Some command =>
          match execute command s with
          | Raises_SystemExit => (s, [])
          | Returns s' out =>
              let '(s'', out') := main_loop rest s' in (s'', (out ++ out')%list)
          end
      end
  end.

Definition main (lines : list string) : InMemoryDB.t * stdout :=
  main_loop lines InMemoryDB.init.

(** ** Sequences of store operations *)

Inductive op :=
  | OSet (key value : string)
  | OUnset (key : string)
  | OBegin
  | ORollback
  | OCommit.

Definition step (s : InMemoryDB.t) (o : op) : InMemoryDB.t :=
  match o with
  | OSet key value => InMemoryDB.set key value s
  | OUnset key => InMemoryDB.unset key s
  | OBegin => InMemoryDB.begin s
  | ORollback => (InMemoryDB.rollback s).1
  | OCommit => (InMemoryDB.commit s).1
  end.

(** The operations are applied from left to right. *)
Definition run (ops : list op) (s : InMemoryDB.t) : InMemoryDB.t :=
  foldl step s ops.

(** The number of keys [k] with [mapping[k] == v]. *)
Definition holders (d : gmap string string) (v : string) : nat :=
  size (filter (λ kv : string * string, kv.2 = v) d).

(** The live (dictionary, counter) pair, and every pair the store holds:
    the live one and the saved ones. *)
Definition current (s : InMemoryDB.t) : InMemoryDB.snapshot :=
  (InMemoryDB._db s, InMemoryDB._counts s).

Definition all_pairs (s : InMemoryDB.t) : list InMemoryDB.snapshot :=
  current s :: InMemoryDB._history s.

(** How far the counter of [v] lies above the number of its holders. *)
Definition excess (p : InMemoryDB.snapshot) (v : string) : Z :=
  InMemoryDB.read p.2 v - Z.of_nat (holders p.1 v).

(** Invariant I1 on a (dictionary, counter) pair. *)
Definition index_consistent (d : gmap string string) (c : gmap string Z)
  : Prop :=
  ∀ v, InMemoryDB.read c v = Z.of_nat (holders d v).

(** 1 when the proposition holds, 0 otherwise. *)
Definition indicator (P : Prop) `{Decision P} : Z :=
  if decide P then 1 else 0.

(** The nine keys of [command_map]. *)
Definition verbs : list string :=
  ["SET"; "GET"; "UNSET"; "COUNTS"; "FIND"; "BEGIN"; "ROLLBACK"; "COMMIT";
   "END"].

(** The precondition of the store's methods: keys and values are not the
    empty string. *)
Definition nonempty_args (o : op) : Prop :=
  match o with
  | OSet key value => key ≠ "" ∧ value ≠ ""
  | OUnset key => key ≠ ""
  | OBegin | ORollback | OCommit => True
  end.

(** The part of the precondition that the index depends on: no [set]
    stores the empty string. *)
Definition nonempty_value (o : op) : Prop :=
  match o with
  | OSet _ value => value ≠ ""
  | _ => True
  end.

(** A pair that satisfies I1 and in which no key holds the empty string. *)
Definition clean (p : InMemoryDB.snapshot) : Prop :=
  index_consistent p.1 p.2 ∧ holders p.1 "" = 0%nat.

(** The operation is not a [set] that stores [value]. *)
Definition never_sets (value : string) (o : op) : Prop :=
  match o with
  | OSet _ v => v ≠ value
  | _ => True
  end.

(** A pair that has never seen [value]: no counter entry and no holder. *)
Definition untracked (value : string) (p : InMemoryDB.snapshot) : Prop :=
  p.2 !! value = None ∧ holders p.1 value = 0%nat.

(** A pair in which no counter lies below the number of holders. *)
Definition counted (p : InMemoryDB.snapshot) : Prop :=
  ∀ v, 0 ≤ excess p v.

Definition is_rollback (o : op) : Prop :=
  match o with
  | ORollback => True
  | _ => False
  end.

(** The number of saved pairs. *)
Definition depth (s : InMemoryDB.t) : nat := length (InMemoryDB._history s).

(** The operations that only ever add to the history. *)
Definition keeps_history (o : op) : Prop :=
  match o with
  | ORollback | OCommit => False
  | OSet _ _ | OUnset _ | OBegin => True
  end.

(** A string without white space, and a word: such a string with at least
    one character. *)
Fixpoint no_space (w : string) : bool :=
  match w with
  | EmptyString => true
  | String a rest => negb (CommandParser.is_space a) && no_space rest
  end.

Definition word (w : string) : Prop := w ≠ "" ∧ no_space w = true.

(** A line of white space only. *)
Fixpoint blank (line : string) : bool :=
  match line with
  | EmptyString => true
  | String a rest => CommandParser.is_space a && blank rest
  end.

(** The commands whose [execute] only reads the store. *)
Definition is_query (c : Command) : bool :=
  match c with
  | GetCommand _ | CountsCommand _ | FindCommand _ | UnknownCommand => true
  | _ => false
  end.

(** The line printed when [input] raises [EOFError]. *)
Definition farewell : string := String "010" "Завершено по EOF.".

(** A string of ASCII characters only, on which [is_space], [split] and
    [upper] above are what [str.split] and [str.upper] do, and a word of
    ASCII characters. *)
Fixpoint is_ascii (w : string) : bool :=
  match w with
  | EmptyString => true
  | String a rest => (nat_of_ascii a <? 128)%nat && is_ascii rest
  end.

Definition ascii_word (w : string) : Prop := word w ∧ is_ascii w = true.

(** The snapshots above the lowest [base] ones are left alone by [ops],
    run from [s]: every [rollback] in [ops] either finds the history empty
    or pops a snapshot that lies above them.  After a [commit] none of the
    old snapshots is left, so [base] drops to 0. *)
Fixpoint spares (base : nat) (ops : list op) (s : InMemoryDB.t) : bool :=
  match ops with
  | [] => true
  | o :: ops' =>
      match o with
      | ORollback => (base <? depth s)%nat || (depth s =? 0)%nat
      | _ => true
      end
      && spares (Nat.min base (depth (step s o))) ops' (step s o)
  end.

(** The live pair and the snapshots above the lowest [base] ones all
    have the counter of the empty string above the number of its
    holders. *)
Definition inflated (base : nat) (s : InMemoryDB.t) : Prop :=
  (base ≤ depth s)%nat
  ∧ 1 ≤ excess (current s) ""
  ∧ Forall (λ p, 1 ≤ excess p "")
      (take (depth s - base) (InMemoryDB._history s)).

(** * Properties *)

(** ** Counting the holders of a value *)

Section holders.
Implicit Types (d : gmap string string) (k v w : string).

Lemma holders_empty w : holders ∅ w = 0%nat.
Proof. unfold holders. by rewrite map_filter_empty, map_size_empty. Qed.

Lemma holders_pos d k w : d !! k = Some w → (0 < holders d w)%nat.
Proof.
  intros Hk. unfold holders.
  assert (size (filter (λ kv : string * string, kv.2 = w) d) ≠ 0%nat); [|lia].
  apply (map_size_ne_0_lookup_2 _ k). exists w.
  by apply map_lookup_filter_Some.
Qed.

Lemma holders_zero d w : holders d w = 0%nat ↔ ∀ k, d !! k ≠ Some w.
Proof.
  split.
  - intros Hz k Hk. apply holders_pos in Hk. lia.
  - intros Hno. unfold holders. apply map_size_empty_iff.
    apply map_empty_filter. intros k x Hk Hx. simpl in Hx. subst x.
    by apply (Hno k).
Qed.

Lemma holders_delete d k w :
  Z.of_nat (holders (delete k d) w)
  = Z.of_nat (holders d w) - indicator (d !! k = Some w).
Proof.
  unfold holders, indicator. rewrite map_filter_delete, map_size_delete.
  destruct (filter _ d !! k) as [x|] eqn:Hf.
  - apply map_lookup_filter_Some in Hf as [Hk Hx]. simpl in Hx. subst x.
    rewrite decide_True by done.
    pose proof (holders_pos d k w Hk) as Hpos. unfold holders in Hpos. lia.
  - rewrite decide_False; [simpl; lia|].
    intros Hk. apply map_lookup_filter_None in Hf as [Hn|Hn]; [congruence|].
    by apply (Hn w).
Qed.

Lemma holders_insert_fresh d k v w :
  d !! k = None →
  Z.of_nat (holders (<[k:=v]> d) w)
  = Z.of_nat (holders d w) + indicator (v = w).
Proof.
  intros Hk. unfold holders, indicator. rewrite map_filter_insert. simpl.
  destruct (decide (v = w)) as [->|Hne].
  - rewrite map_size_insert_None; [lia|].
    apply map_lookup_filter_None. by left.
  - rewrite map_filter_delete, map_size_delete_None; [lia|].
    apply map_lookup_filter_None. by left.
Qed.

Lemma holders_insert d k v w :
  Z.of_nat (holders (<[k:=v]> d) w)
  = Z.of_nat (holders d w) - indicator (d !! k = Some w) + indicator (v = w).
Proof.
  rewrite <-(insert_delete_eq d).
  rewrite holders_insert_fresh by apply lookup_delete_eq.
  by rewrite holders_delete.
Qed.
End holders.

(** ** The counter under [set] and [unset] *)

Section counters.
Import InMemoryDB.
Implicit Types (s : t) (c : gmap string Z) (k v w : string).

Lemma truthy_spec v : truthy v = true ↔ v ≠ "".
Proof. destruct v; simpl; split; congruence. Qed.

Lemma read_empty w : read ∅ w = 0.
Proof. unfold read. by rewrite lookup_empty. Qed.

Lemma read_add c v n w :
  read (add c v n) w = read c w + (if decide (v = w) then n else 0).
Proof.
  unfold add, read at 1. destruct (decide (v = w)) as [->|Hne].
  - rewrite lookup_insert_eq. simpl. lia.
  - rewrite lookup_insert_ne by done. fold (read c w). lia.
Qed.

(** The counter after [set]: the old value loses one exactly when the key
    was present with a non-empty value; the new value gains one. *)
Lemma counts_set k v s w :
  counts_value w (set k v s)
  = counts_value w s
    - indicator (get k s = Some w ∧ w ≠ "") + indicator (v = w).
Proof.
  unfold counts_value, get, set, indicator. simpl.
  fold (read (_counts s) w).
  destruct (_db s !! k) as [o|] eqn:Hk.
  - destruct (truthy o) eqn:Ho.
    + apply truthy_spec in Ho.
      match goal with |- default 0 (?c !! w) = _ => fold (read c w) end.
      rewrite !read_add.
      repeat case_decide; destruct_and?; simplify_eq; try lia; naive_solver.
    + assert (o = "") as -> by (destruct o; simpl in Ho; congruence).
      match goal with |- default 0 (?c !! w) = _ => fold (read c w) end.
      rewrite read_add.
      repeat case_decide; destruct_and?; simplify_eq; try lia; naive_solver.
  - match goal with |- default 0 (?c !! w) = _ => fold (read c w) end.
    rewrite read_add.
    repeat case_decide; destruct_and?; simplify_eq; lia.
Qed.

Lemma excess_set k v s w :
  excess (current (set k v s)) w
  = excess (current s) w + indicator (get k s = Some "" ∧ w = "").
Proof.
  unfold excess, current. cbn [fst snd].
  change (read (_counts (set k v s)) w) with (counts_value w (set k v s)).
  rewrite counts_set. unfold counts_value. fold (read (_counts s) w).
  change (_db (set k v s)) with (<[k:=v]> (_db s)).
  rewrite holders_insert. unfold indicator, get.
  repeat case_decide; destruct_and?; simplify_eq; try lia; naive_solver.
Qed.

Lemma excess_unset k s w :
  excess (current (unset k s)) w = excess (current s) w.
Proof.
  unfold excess, current, unset. destruct (_db s !! k) as [o|] eqn:Hk; [|done].
  cbn [fst snd _db _counts _save_state].
  rewrite read_add, holders_delete, Hk. unfold indicator.
  repeat case_decide; simplify_eq; lia.
Qed.
End counters.

(** ** Properties of every pair the store holds *)

Section invariant.
Import InMemoryDB.
Variable P : snapshot → Prop.
Variable ok : op → Prop.
Hypothesis P_set :
  ∀ s k v, ok (OSet k v) → P (current s) → P (current (set k v s)).
Hypothesis P_unset :
  ∀ s k, ok (OUnset k) → P (current s) → P (current (unset k s)).

Lemma all_pairs_set k v s :
  all_pairs (set k v s) = current (set k v s) :: all_pairs s.
Proof. done. Qed.

Lemma all_pairs_unset k s o :
  get k s = Some o →
  all_pairs (unset k s) = current (unset k s) :: all_pairs s.
Proof. unfold get, all_pairs, unset. by intros ->. Qed.

Lemma step_all_pairs s o :
  ok o → Forall P (all_pairs s) → Forall P (all_pairs (step s o)).
Proof.
  intros Hok Hall. pose proof (Forall_inv Hall) as Hcur.
  destruct o as [k v|k| | |]; simpl.
  - rewrite all_pairs_set. constructor; auto.
  - destruct (get k s) as [o|] eqn:Hk.
    + rewrite (all_pairs_unset _ _ _ Hk). constructor; auto.
    + unfold unset. unfold get in Hk. by rewrite Hk.
  - by constructor.
  - unfold rollback, all_pairs in *.
    destruct (_history s) as [|[d c] h] eqn:Hh; simpl.
    + rewrite Hh. by constructor.
    + by apply Forall_inv_tail in Hall.
  - unfold commit, all_pairs in *.
    destruct (_history s) eqn:Hh; simpl.
    + rewrite Hh. by constructor.
    + by constructor.
Qed.

Lemma run_all_pairs ops s :
  Forall ok ops → Forall P (all_pairs s) → Forall P (all_pairs (run ops s)).
Proof.
  intros Hok. revert s. induction Hok as [|o ops Ho _ IH]; intros s Hs.
  - done.
  - simpl. apply IH. by apply step_all_pairs.
Qed.
End invariant.

(** ** Invariants of the reachable stores *)

Section reachable.
Import InMemoryDB.
Implicit Types (s : t) (k v w : string).

Lemma index_consistent_excess (p : snapshot) :
  index_consistent p.1 p.2 ↔ ∀ v, excess p v = 0.
Proof.
  unfold index_consistent, excess. split; intros H v; specialize (H v); lia.
Qed.

Lemma holders_set_empty k v s :
  v ≠ "" → holders (_db s) "" = 0%nat →
  holders (_db (set k v s)) "" = 0%nat.
Proof.
  intros Hv Hz. change (_db (set k v s)) with (<[k:=v]> (_db s)).
  pose proof (holders_insert (_db s) k v "") as H. unfold indicator in H.
  rewrite decide_False in H by (intros Hk; apply holders_pos in Hk; lia).
  rewrite decide_False in H by done. lia.
Qed.

Lemma holders_unset_zero k s w :
  holders (_db s) w = 0%nat → holders (_db (unset k s)) w = 0%nat.
Proof.
  intros Hz. unfold unset. destruct (_db s !! k) as [o|] eqn:Hk; [|done].
  cbn [_db _save_state]. pose proof (holders_delete (_db s) k w) as H.
  unfold indicator in H. case_decide; lia.
Qed.

Lemma clean_set s k v :
  nonempty_value (OSet k v) → clean (current s) → clean (current (set k v s)).
Proof.
  intros Hv [Hc Hz]. simpl in Hv. split.
  - apply (index_consistent_excess (current (set k v s))).
    intros w. rewrite excess_set.
    rewrite (proj1 (index_consistent_excess (current s)) Hc w).
    unfold indicator.
    rewrite decide_False; [done|].
    intros [Hk _]. apply holders_pos in Hk. simpl in Hz. lia.
  - by apply holders_set_empty.
Qed.

Lemma clean_unset s k :
  nonempty_value (OUnset k) → clean (current s) → clean (current (unset k s)).
Proof.
  intros _ [Hc Hz]. split.
  - apply (index_consistent_excess (current (unset k s))).
    intros w. rewrite excess_unset.
    exact (proj1 (index_consistent_excess (current s)) Hc w).
  - by apply holders_unset_zero.
Qed.

Lemma clean_init : Forall clean (all_pairs init).
Proof.
  constructor; [split; simpl|constructor].
  - intros v. by rewrite read_empty, holders_empty.
  - apply holders_empty.
Qed.

Lemma counted_set s k v :
  True → counted (current s) → counted (current (set k v s)).
Proof.
  intros _ Hc w. rewrite excess_set. specialize (Hc w).
  unfold indicator. case_decide; lia.
Qed.

Lemma counted_unset s k :
  True → counted (current s) → counted (current (unset k s)).
Proof. intros _ Hc w. rewrite excess_unset. apply Hc. Qed.

Lemma counted_init : Forall counted (all_pairs init).
Proof.
  constructor; [|constructor]. intros v. unfold excess. simpl.
  rewrite read_empty, holders_empty. lia.
Qed.

Lemma untracked_set value s k v :
  never_sets value (OSet k v) →
  untracked value (current s) → untracked value (current (set k v s)).
Proof.
  intros Hv [Hc Hz]. simpl in *. split.
  - unfold set. cbn [snd current _counts _db _save_state].
    unfold add at 1. rewrite lookup_insert_ne by done.
    destruct (_db s !! k) as [o|] eqn:Hk; [|done].
    destruct (truthy o); [|done].
    unfold add. rewrite lookup_insert_ne; [done|].
    intros ->. apply holders_pos in Hk. lia.
  - cbn [fst current]. change (_db (set k v s)) with (<[k:=v]> (_db s)).
    pose proof (holders_insert (_db s) k v value) as H.
    unfold indicator in H. rewrite (decide_False (P := v = value)) in H by done.
    rewrite decide_False in H by (intros Hk; apply holders_pos in Hk; lia).
    lia.
Qed.

Lemma untracked_unset value s k :
  never_sets value (OUnset k) →
  untracked value (current s) → untracked value (current (unset k s)).
Proof.
  intros _ [Hc Hz]. simpl in *. split.
  - unfold unset. destruct (_db s !! k) as [o|] eqn:Hk; [|done].
    cbn [snd current _counts _save_state].
    unfold add. rewrite lookup_insert_ne; [done|].
    intros ->. apply holders_pos in Hk. lia.
  - by apply holders_unset_zero.
Qed.

Lemma untracked_init value : Forall (untracked value) (all_pairs init).
Proof.
  constructor; [split; simpl|constructor].
  - apply lookup_empty.
  - apply holders_empty.
Qed.

Lemma nonempty_args_value o : nonempty_args o → nonempty_value o.
Proof. destruct o; simpl; tauto. Qed.

Lemma run_clean ops :
  Forall nonempty_args ops → clean (current (run ops init)).
Proof.
  intros Hok. eapply Forall_inv.
  apply (run_all_pairs clean nonempty_value clean_set clean_unset);
    [|exact clean_init].
  eapply Forall_impl; [exact Hok|]. apply nonempty_args_value.
Qed.

Lemma run_counted ops s :
  Forall counted (all_pairs s) → Forall counted (all_pairs (run ops s)).
Proof.
  apply (run_all_pairs counted (λ _, True) counted_set counted_unset).
  by apply Forall_forall.
Qed.

Lemma run_untracked value ops :
  Forall (never_sets value) ops → untracked value (current (run ops init)).
Proof.
  intros Hok. eapply Forall_inv.
  exact (run_all_pairs (untracked value) (never_sets value)
           (untracked_set value) (untracked_unset value)
           ops init Hok (untracked_init value)).
Qed.

(** Without [rollback] the excess of a counter never shrinks. *)
Lemma excess_step_mono s o w :
  ¬ is_rollback o → excess (current s) w ≤ excess (current (step s o)) w.
Proof.
  intros Hnr. destruct o as [k v|k| | |]; simpl.
  - rewrite excess_set. unfold indicator. case_decide; lia.
  - rewrite excess_unset. lia.
  - done.
  - by destruct Hnr.
  - unfold commit. by destruct (_history s).
Qed.

Lemma excess_run_mono ops s w :
  Forall (λ o, ¬ is_rollback o) ops →
  excess (current s) w ≤ excess (current (run ops s)) w.
Proof.
  intros Hnr. revert s. induction Hnr as [|o ops Ho _ IH]; intros s; [done|].
  simpl. etrans; [by apply excess_step_mono|apply IH].
Qed.
End reachable.

(** ** The claims about the reverse index *)

(** C1. Index consistency: along every sequence of set, unset, begin,
    rollback and commit operations on a fresh store whose keys and values
    are non-empty strings, after each operation the counter of every value
    (an absent entry counting as zero) is the number of keys that hold the
    value. *)
Theorem index_consistency (ops : list op) (n : nat) (v : string) :
  Forall nonempty_args ops →
  InMemoryDB.counts_value v (run (take n ops) InMemoryDB.init)
  = Z.of_nat (holders (InMemoryDB._db (run (take n ops) InMemoryDB.init)) v).
Proof.
  intros Hok. apply (Forall_take _ n) in Hok.
  destruct (run_clean _ Hok) as [Hc _]. apply Hc.
Qed.

Lemma index_consistency_witness :
  Forall nonempty_args
    [OSet "a" "10"; OSet "b" "20"; OBegin; OSet "a" "20"; OUnset "b";
     ORollback; OCommit]
  ∧ InMemoryDB.counts_value "20"
      (run (take 4 [OSet "a" "10"; OSet "b" "20"; OBegin; OSet "a" "20";
                    OUnset "b"; ORollback; OCommit]) InMemoryDB.init)
    = Z.of_nat (holders (InMemoryDB._db
        (run (take 4 [OSet "a" "10"; OSet "b" "20"; OBegin; OSet "a" "20";
                      OUnset "b"; ORollback; OCommit]) InMemoryDB.init)) "20").
Proof.
  assert (Forall nonempty_args
    [OSet "a" "10"; OSet "b" "20"; OBegin; OSet "a" "20"; OUnset "b";
     ORollback; OCommit]) as Hok.
  { repeat constructor; discriminate. }
  split; [exact Hok|].
  exact (index_consistency _ 4 "20" Hok).
Defined.

(** C6. [counts(value)] prints the decimal form of a non-negative integer,
    the counter entry of the value or 0 when there is none; it is 0 for a
    value that no [set] has stored, and 0 on a fresh store. *)
Theorem counts_nonnegative (ops : list op) (value : string) :
  let s := run ops InMemoryDB.init in
  InMemoryDB.counts value s = [pretty (InMemoryDB.counts_value value s)]
  ∧ 0 ≤ InMemoryDB.counts_value value s
  ∧ InMemoryDB.counts_value value s
    = match InMemoryDB._counts s !! value with Some n => n | None => 0 end
  ∧ (Forall (never_sets value) ops → InMemoryDB.counts_value value s = 0)
  ∧ InMemoryDB.counts_value value InMemoryDB.init = 0.
Proof.
  intros s. split; [done|]. split; [|split; [|split]].
  - pose proof (run_counted ops _ counted_init) as Hall.
    apply Forall_inv in Hall. specialize (Hall value).
    unfold excess, current in Hall. simpl in Hall.
    fold s in Hall. unfold InMemoryDB.counts_value.
    unfold InMemoryDB.read in Hall. lia.
  - unfold InMemoryDB.counts_value. by destruct (_ !! _).
  - intros Hok. destruct (run_untracked value ops Hok) as [Hc _].
    unfold InMemoryDB.counts_value. simpl in Hc. fold s in Hc. by rewrite Hc.
  - done.
Qed.

Lemma counts_nonnegative_witness :
  Forall (never_sets "neverused") [OSet "a" "x"; OBegin; OUnset "a"; ORollback]
  ∧ InMemoryDB.counts_value "neverused"
      (run [OSet "a" "x"; OBegin; OUnset "a"; ORollback] InMemoryDB.init) = 0.
Proof.
  assert (Forall (never_sets "neverused")
            [OSet "a" "x"; OBegin; OUnset "a"; ORollback]) as Hok.
  { repeat constructor; discriminate. }
  split; [exact Hok|].
  exact (proj1 (proj2 (proj2 (proj2
    (counts_nonnegative [OSet "a" "x"; OBegin; OUnset "a"; ORollback]
       "neverused")))) Hok).
Defined.

(** ** The keys that hold a value *)

Section find.
Import InMemoryDB.
Implicit Types (s : t) (k value : string) (l : list string).

Lemma elem_of_matching_keys value s k :
  k ∈ matching_keys value s ↔ get k s = Some value.
Proof.
  unfold matching_keys, get. rewrite list_elem_of_fmap. split.
  - intros [[k' v] [-> H]]. apply list_elem_of_filter in H as [Hv H].
    simpl in *. subst v. by apply elem_of_map_to_list.
  - intros Hk. exists (k, value). split; [done|].
    apply list_elem_of_filter. split; [done|]. by apply elem_of_map_to_list.
Qed.

Lemma NoDup_matching_keys value s : NoDup (matching_keys value s).
Proof.
  unfold matching_keys. eapply sublist_NoDup.
  - apply (NoDup_fst_map_to_list (_db s)).
  - apply fmap_sublist, sublist_filter.
Qed.

Lemma StronglySorted_strict l :
  StronglySorted String.le l → NoDup l → StronglySorted (strict String.le) l.
Proof.
  induction 1 as [|x l Hl IH Hx]; intros Hnd; [constructor|].
  apply NoDup_cons in Hnd as [Hin Hnd]. constructor; [by apply IH|].
  apply Forall_forall. intros y Hy. rewrite Forall_forall in Hx.
  apply strict_spec_alt. split; [by apply Hx|]. by intros ->.
Qed.

(** [sorted] keeps the elements and puts distinct strings in strictly
    ascending order. *)
Lemma sorted_spec l :
  NoDup l →
  (∀ k, k ∈ sorted l ↔ k ∈ l) ∧ StronglySorted (strict String.le) (sorted l).
Proof.
  intros Hnd. unfold sorted.
  pose proof (merge_sort_Permutation String.le l) as Hp. split.
  - intros k. by rewrite Hp.
  - apply StronglySorted_strict.
    + apply (StronglySorted_merge_sort String.le).
    + by rewrite Hp.
Qed.

Lemma no_space_append_space (k r : string) :
  no_space (k ++ String " " r) = false.
Proof.
  induction k as [|a k IH]; [done|].
  change (String a k ++ String " " r)%string
    with (String a (k ++ String " " r)%string).
  simpl. rewrite IH. apply andb_false_r.
Qed.

(** Two keys or more are joined with a space between them. *)
Lemma join_has_space k1 k2 l : no_space (join (k1 :: k2 :: l)) = false.
Proof.
  unfold join.
  change (String.concat " " (k1 :: k2 :: l))
    with (k1 ++ String " " (String.concat " " (k2 :: l)))%string.
  apply no_space_append_space.
Qed.
End find.

(** C5, as amended. [find(value)] prints the keys that currently hold the
    value, each once, in ascending order of the strings and joined by
    single spaces, or the marker NULL when no key holds the value; after
    [set(a, "x")], [set(c, "x")], [set(b, "x")] on a fresh store it prints
    [a b c].  The marker is not distinct from every result: the line NULL
    is printed exactly when no key other than the key NULL holds the
    value, that is, also when the key NULL is the only holder. *)
Theorem find_sorted_keys_or_marker (value : string) (s : InMemoryDB.t) :
  (∃ keys : list string,
     (∀ k, k ∈ keys ↔ InMemoryDB.get k s = Some value)
     ∧ StronglySorted (strict String.le) keys
     ∧ InMemoryDB.find value s
       = [match keys with [] => "NULL" | _ :: _ => InMemoryDB.join keys end])
  ∧ (InMemoryDB.find value s = ["NULL"]
     ↔ ∀ k, InMemoryDB.get k s = Some value → k = "NULL")
  ∧ InMemoryDB.find "x"
      (run [OSet "a" "x"; OSet "c" "x"; OSet "b" "x"] InMemoryDB.init)
    = ["a b c"].
Proof.
  destruct (sorted_spec _ (NoDup_matching_keys value s)) as [Hel Hst].
  assert (∀ k, k ∈ InMemoryDB.sorted (InMemoryDB.matching_keys value s)
               ↔ InMemoryDB.get k s = Some value) as Hk.
  { intros k. rewrite Hel. apply elem_of_matching_keys. }
  assert (InMemoryDB.find value s
    = [match InMemoryDB.sorted (InMemoryDB.matching_keys value s) with
       | [] => "NULL"
       | _ :: _ =>
           InMemoryDB.join (InMemoryDB.sorted (InMemoryDB.matching_keys value s))
       end]) as Hfind.
  { unfold InMemoryDB.find.
    destruct (InMemoryDB.matching_keys value s) as [|k l] eqn:Hm; [done|].
    destruct (InMemoryDB.sorted (k :: l)) as [|k' l'] eqn:Hs; [|done].
    exfalso. specialize (Hel k). rewrite elem_of_nil in Hel.
    apply Hel. by left. }
  split; [|split; [|by vm_compute]].
  - by exists (InMemoryDB.sorted (InMemoryDB.matching_keys value s)).
  - rewrite Hfind.
    destruct (InMemoryDB.sorted (InMemoryDB.matching_keys value s))
      as [|k1 [|k2 l]] eqn:Hs.
    + split; [|done]. intros _ k Hg. apply Hk in Hg.
      by apply elem_of_nil in Hg.
    + split.
      * intros [= H1] k Hg. apply Hk in Hg.
        apply list_elem_of_singleton in Hg. subst k.
        by rewrite <-H1.
      * intros Hall. assert (k1 = "NULL") as ->; [|done].
        apply Hall, Hk. by left.
    + split.
      * intros [= H1]. exfalso.
        assert (no_space (InMemoryDB.join (k1 :: k2 :: l)) = true) as Hn
          by (by rewrite H1).
        by rewrite join_has_space in Hn.
      * intros Hall. exfalso.
        assert (k1 = "NULL") as H1 by (apply Hall, Hk; by left).
        assert (k2 = "NULL") as H2 by (apply Hall, Hk; right; by left).
        subst. apply StronglySorted_inv in Hst as [_ Hlt].
        apply Forall_inv in Hlt. destruct Hlt as [_ Hlt]. by apply Hlt.
Qed.

Lemma find_sorted_keys_or_marker_witness :
  (∀ k, InMemoryDB.get k (InMemoryDB.set "NULL" "x" InMemoryDB.init)
        = Some "x" → k = "NULL")
  ∧ InMemoryDB.find "x" (InMemoryDB.set "NULL" "x" InMemoryDB.init)
    = ["NULL"].
Proof.
  assert (∀ k, InMemoryDB.get k (InMemoryDB.set "NULL" "x" InMemoryDB.init)
               = Some "x" → k = "NULL") as Hall.
  { intros k. unfold InMemoryDB.get. simpl.
    rewrite lookup_insert, lookup_empty. by case_decide. }
  split; [exact Hall|].
  exact (proj2 (proj1 (proj2 (find_sorted_keys_or_marker "x"
    (InMemoryDB.set "NULL" "x" InMemoryDB.init)))) Hall).
Defined.

(** The claim as worded fails: in the store reached by the line
    [SET NULL x] the key NULL holds "x", and [find("x")] prints the line
    that stands for no results. *)
Lemma find_marker_not_distinct :
  ¬ (∀ (value : string) (lines : list string),
       InMemoryDB.find value (main lines).1 = ["NULL"] →
       ∀ k, InMemoryDB.get k (main lines).1 ≠ Some value).
Proof.
  intros H. apply (H "x" ["SET NULL x"] ltac:(by vm_compute) "NULL").
  by vm_compute.
Qed.

(** The marker is also what [find] prints when the one key that holds the
    value is itself named NULL. *)
Example find_key_named_NULL :
  InMemoryDB.find "x" (InMemoryDB.set "NULL" "x" InMemoryDB.init)
  = InMemoryDB.find "x" InMemoryDB.init.
Proof. by vm_compute. Qed.

(** ** The undo history *)

Section history.
Import InMemoryDB.
Implicit Types (s : t) (k v : string).

Lemma rollback_begin s : rollback (begin s) = (s, []).
Proof. by destruct s. Qed.

Lemma rollback_set k v s : rollback (set k v s) = (s, []).
Proof. by destruct s. Qed.

Lemma unset_absent k s : get k s = None → unset k s = s.
Proof. unfold get, unset. by intros ->. Qed.

Lemma rollback_unset_present k s :
  is_Some (get k s) → rollback (unset k s) = (s, []).
Proof. unfold get, unset. intros [o ->]. by destruct s. Qed.

Lemma history_unset_present k s :
  is_Some (get k s) →
  _history (unset k s) = (_db s, _counts s) :: _history s.
Proof. unfold get, unset. by intros [o ->]. Qed.
End history.

(** C2 on the code.  After [begin(); set(a, "1"); begin(); set(a, "2")] the
    history holds four snapshots, two of them pushed by [set]: the first
    [rollback] yields [get(a) == "1"], the second one pops the snapshot of
    the inner [begin] and still yields "1", and [a] is absent only after a
    third [rollback]. *)
Theorem rollback_after_nested_begin (a : string) :
  let s := run [OBegin; OSet a "1"; OBegin; OSet a "2"; ORollback]
             InMemoryDB.init in
  InMemoryDB.get a s = Some "1"
  ∧ InMemoryDB.get a (run [ORollback] s) = Some "1"
  ∧ InMemoryDB.get a (run [ORollback; ORollback] s) = None
  ∧ length (InMemoryDB._history s) = 3%nat.
Proof.
  simpl. unfold InMemoryDB.get. simpl.
  rewrite lookup_insert_eq, lookup_empty. done.
Qed.

(** C3. After [begin(); set(a, "1"); begin(); set(a, "2"); commit()] on a
    fresh store the history is empty, a following [rollback] reports that
    no transaction is open and changes nothing, and [get(a) == "2"];
    [commit] empties the history whatever its depth. *)
Theorem commit_flattens_all_levels (a : string) :
  let s := run [OBegin; OSet a "1"; OBegin; OSet a "2"; OCommit]
             InMemoryDB.init in
  InMemoryDB._history s = []
  ∧ InMemoryDB.rollback s = (s, ["NO TRANSACTION"])
  ∧ InMemoryDB.get a s = Some "2"
  ∧ ∀ s' : InMemoryDB.t, InMemoryDB._history (InMemoryDB.commit s').1 = [].
Proof.
  simpl. split; [done|]. split; [done|]. split.
  - unfold InMemoryDB.get. simpl. by rewrite lookup_insert_eq.
  - intros s'. unfold InMemoryDB.commit.
    by destruct (InMemoryDB._history s') eqn:Hh.
Qed.

(** C4. With an empty history, as on a fresh store, [rollback] and [commit]
    print the diagnostic, return normally and leave the whole store, the
    mapping and the counter included, as it was. *)
Theorem no_transaction_diagnostics (s : InMemoryDB.t) :
  InMemoryDB._history s = [] →
  InMemoryDB.rollback s = (s, ["NO TRANSACTION"])
  ∧ InMemoryDB.commit s = (s, ["NO TRANSACTION"])
  ∧ execute RollbackCommand s = Returns s ["NO TRANSACTION"]
  ∧ execute CommitCommand s = Returns s ["NO TRANSACTION"].
Proof.
  intros Hh. unfold execute, InMemoryDB.rollback, InMemoryDB.commit.
  by rewrite Hh.
Qed.

Lemma no_transaction_diagnostics_witness :
  InMemoryDB._history InMemoryDB.init = []
  ∧ InMemoryDB.rollback InMemoryDB.init
    = (InMemoryDB.init, ["NO TRANSACTION"])
  ∧ InMemoryDB.commit InMemoryDB.init
    = (InMemoryDB.init, ["NO TRANSACTION"]).
Proof.
  split; [reflexivity|].
  pose proof (no_transaction_diagnostics InMemoryDB.init eq_refl) as H.
  exact (conj (proj1 H) (proj1 (proj2 H))).
Defined.

(** C7. [unset] of a key that is not in the mapping returns the store as
    it was: no snapshot is pushed and neither the mapping nor the counter
    changes.  A following [rollback] therefore does what it would have done
    without the [unset], and in a transaction just opened by [begin] it
    gives back the store from before the [begin]. *)
Theorem unset_absent_key_noop (key : string) (s : InMemoryDB.t) :
  InMemoryDB.get key s = None →
  InMemoryDB.unset key s = s
  ∧ InMemoryDB.rollback (InMemoryDB.unset key s) = InMemoryDB.rollback s
  ∧ InMemoryDB.rollback (InMemoryDB.unset key (InMemoryDB.begin s)) = (s, []).
Proof.
  intros Hk. rewrite (unset_absent key s Hk).
  rewrite (unset_absent key (InMemoryDB.begin s) Hk).
  by rewrite rollback_begin.
Qed.

Lemma unset_absent_key_noop_witness :
  InMemoryDB.get "missing" (InMemoryDB.set "a" "1" InMemoryDB.init) = None
  ∧ InMemoryDB.unset "missing"
      (InMemoryDB.begin (InMemoryDB.set "a" "1" InMemoryDB.init))
    = InMemoryDB.begin (InMemoryDB.set "a" "1" InMemoryDB.init)
  ∧ InMemoryDB.rollback (InMemoryDB.unset "missing"
      (InMemoryDB.begin (InMemoryDB.set "a" "1" InMemoryDB.init)))
    = (InMemoryDB.set "a" "1" InMemoryDB.init, []).
Proof.
  assert (InMemoryDB.get "missing" (InMemoryDB.set "a" "1" InMemoryDB.init)
          = None) as Hk by (by vm_compute).
  split; [exact Hk|]. split.
  - exact (proj1 (unset_absent_key_noop "missing"
             (InMemoryDB.begin (InMemoryDB.set "a" "1" InMemoryDB.init)) Hk)).
  - exact (proj2 (proj2 (unset_absent_key_noop "missing"
             (InMemoryDB.set "a" "1" InMemoryDB.init) Hk))).
Defined.

(** C9. Every [set], and every [unset] of a key that is present, pushes
    the pair it found onto the history, whether or not [begin] was called;
    a [rollback] right after it prints nothing and gives back the store
    from before the mutation, also on a fresh store. *)
Theorem mutations_push_snapshots (s : InMemoryDB.t) (k v : string) :
  InMemoryDB._history (InMemoryDB.set k v s)
  = (InMemoryDB._db s, InMemoryDB._counts s) :: InMemoryDB._history s
  ∧ InMemoryDB.rollback (InMemoryDB.set k v s) = (s, [])
  ∧ InMemoryDB._history (InMemoryDB.unset k s)
    = (if decide (is_Some (InMemoryDB.get k s))
       then (InMemoryDB._db s, InMemoryDB._counts s) :: InMemoryDB._history s
       else InMemoryDB._history s)
  ∧ InMemoryDB.rollback (InMemoryDB.unset k s)
    = (if decide (is_Some (InMemoryDB.get k s)) then (s, [])
       else InMemoryDB.rollback s)
  ∧ InMemoryDB._history InMemoryDB.init = []
  ∧ InMemoryDB.rollback (InMemoryDB.set k v InMemoryDB.init)
    = (InMemoryDB.init, []).
Proof.
  split; [done|]. split; [apply rollback_set|]. split; [|split].
  - case_decide as Hk.
    + by apply history_unset_present.
    + rewrite unset_absent; [done|]. by apply eq_None_not_Some.
  - case_decide as Hk.
    + by apply rollback_unset_present.
    + rewrite unset_absent; [done|]. by apply eq_None_not_Some.
  - split; [done|]. apply rollback_set.
Qed.

(** ** The parser *)

Section parser.
Import CommandParser.
Implicit Types (cmd line : string) (parts : list string).

Lemma dispatch_unrecognized cmd parts :
  cmd ∉ verbs → dispatch cmd parts = UnknownCommand.
Proof.
  unfold verbs. rewrite !not_elem_of_cons. intros H. destruct_and!.
  unfold dispatch, command_map.
  by rewrite !lookup_insert_ne, lookup_empty by done.
Qed.

(** The five verbs that take arguments check the number of words. *)
Lemma dispatch_wrong_arity cmd parts :
  (cmd = "SET" ∧ length parts ≠ 3%nat)
  ∨ (cmd ∈ ["GET"; "UNSET"; "COUNTS"; "FIND"] ∧ length parts ≠ 2%nat) →
  dispatch cmd parts = UnknownCommand.
Proof.
  intros [[-> Hn]|[Hc Hn]].
  - unfold dispatch, command_map. rewrite lookup_insert_eq. simpl.
    by rewrite decide_False.
  - rewrite !elem_of_cons, elem_of_nil in Hc.
    destruct Hc as [->|[->|[->|[->|[]]]]];
      unfold dispatch, command_map;
      repeat (rewrite lookup_insert_ne by done);
      rewrite lookup_insert_eq; simpl; by rewrite decide_False.
Qed.

(** The four verbs without arguments never look at the words. *)
Lemma dispatch_zero_argument parts :
  dispatch "BEGIN" parts = BeginCommand
  ∧ dispatch "ROLLBACK" parts = RollbackCommand
  ∧ dispatch "COMMIT" parts = CommitCommand
  ∧ dispatch "END" parts = EndCommand.
Proof. done. Qed.

Lemma execute_unknown s : execute UnknownCommand s = Returns s ["UNKNOWN COMMAND"].
Proof. done. Qed.
End parser.

(** C8 on the code.  An unrecognized verb, and SET, GET, UNSET, COUNTS or
    FIND with a wrong number of arguments, give the unknown-command reply
    and leave the store alone; BEGIN, ROLLBACK, COMMIT and END do not check
    their arguments: [BEGIN x] is parsed as [BeginCommand] and pushes a
    snapshot, [END x] ends the session. *)
Theorem zero_argument_verbs_accept_arguments :
  CommandParser.parse "BEGIN x" = Some BeginCommand
  ∧ CommandParser.parse "ROLLBACK x" = Some RollbackCommand
  ∧ CommandParser.parse "COMMIT x y" = Some CommitCommand
  ∧ CommandParser.parse "END x" = Some EndCommand
  ∧ calls_store BeginCommand = true
  ∧ execute BeginCommand InMemoryDB.init
    = Returns (InMemoryDB.begin InMemoryDB.init) []
  ∧ InMemoryDB._history (InMemoryDB.begin InMemoryDB.init) = [(∅, ∅)]
  ∧ (∀ cmd parts,
       (cmd ∉ verbs
        ∨ (cmd = "SET" ∧ length parts ≠ 3%nat)
        ∨ (cmd ∈ ["GET"; "UNSET"; "COUNTS"; "FIND"] ∧ length parts ≠ 2%nat)) →
       CommandParser.dispatch cmd parts = UnknownCommand)
  ∧ (∀ s, execute UnknownCommand s = Returns s ["UNKNOWN COMMAND"]).
Proof.
  repeat (split; [by vm_compute|]). split; [|done].
  intros cmd parts [H|H].
  - by apply dispatch_unrecognized.
  - by apply dispatch_wrong_arity.
Qed.

Lemma zero_argument_verbs_accept_arguments_witness :
  ("FOO" ∉ verbs)
  ∧ CommandParser.dispatch "FOO" ["foo"; "1"] = UnknownCommand
  ∧ CommandParser.dispatch "SET" ["set"; "a"] = UnknownCommand.
Proof.
  assert ("FOO" ∉ verbs) as Hn.
  { unfold verbs. rewrite !not_elem_of_cons. repeat split; try discriminate.
    apply not_elem_of_nil. }
  assert (length ["set"; "a"] ≠ 3%nat) as Hl by discriminate.
  pose proof (proj1 (proj2 (proj2 (proj2 (proj2 (proj2 (proj2 (proj2
                zero_argument_verbs_accept_arguments)))))))) as H.
  split; [exact Hn|]. split.
  - exact (H "FOO" ["foo"; "1"] (or_introl Hn)).
  - exact (H "SET" ["set"; "a"] (or_intror (or_introl (conj eq_refl Hl)))).
Defined.

(** ** Sessions keep the index consistent *)

Section session.
Import CommandParser.
Implicit Types (cmd line w : string) (parts : list string).

Lemma rev_app_nonempty (s1 s2 : string) : s2 ≠ "" → String.rev_app s1 s2 ≠ "".
Proof.
  revert s2. induction s1 as [|a s1 IH]; intros s2 Hs2; simpl; [done|].
  by apply IH.
Qed.

Lemma flush_nonempty (cur : string) : Forall (λ w, w ≠ "") (flush cur).
Proof.
  destruct cur as [|a cur]; simpl; [constructor|].
  constructor; [|constructor]. unfold String.rev. simpl.
  by apply rev_app_nonempty.
Qed.

Lemma split_from_nonempty cur line :
  Forall (λ w, w ≠ "") (split_from cur line).
Proof.
  revert cur. induction line as [|a line IH]; intros cur; simpl.
  - apply flush_nonempty.
  - destruct (is_space a); [|apply IH].
    apply Forall_app. split; [apply flush_nonempty|apply IH].
Qed.

(** The words of a line are never empty: the arguments that reach the
    store through the parser satisfy its precondition. *)
Lemma split_nonempty line : Forall (λ w, w ≠ "") (split line).
Proof. apply split_from_nonempty. Qed.

Lemma nth_part_nonempty parts i :
  Forall (λ w, w ≠ "") parts → (i < length parts)%nat → nth_part parts i ≠ "".
Proof.
  intros Hall Hi. unfold nth_part.
  destruct (lookup_lt_is_Some_2 parts i Hi) as [w Hw]. rewrite Hw. simpl.
  by apply (Forall_lookup_1 _ _ _ _ Hall Hw).
Qed.

Lemma dispatch_set cmd parts k v :
  dispatch cmd parts = SetCommand k v →
  length parts = 3%nat ∧ k = nth_part parts 1 ∧ v = nth_part parts 2.
Proof.
  unfold dispatch, command_map. rewrite !lookup_insert, lookup_empty.
  repeat case_decide; simpl; try discriminate;
    case_decide; try discriminate.
  by intros [= <- <-].
Qed.

Lemma parse_set line k v :
  parse line = Some (SetCommand k v) → k ≠ "" ∧ v ≠ "".
Proof.
  unfold parse. pose proof (split_nonempty line) as Hall.
  destruct (split line) as [|p0 rest] eqn:Hs; [done|].
  intros [= Hd]. apply dispatch_set in Hd as (Hl & -> & ->).
  split; apply nth_part_nonempty; try done; lia.
Qed.

Lemma execute_clean (c : Command) (s s' : InMemoryDB.t) (out : stdout) :
  (∀ k v, c = SetCommand k v → k ≠ "" ∧ v ≠ "") →
  execute c s = Returns s' out →
  Forall clean (all_pairs s) → Forall clean (all_pairs s').
Proof.
  intros Hc He Hs.
  assert (∀ o, nonempty_value o → Forall clean (all_pairs (step s o))) as Hstep.
  { intros o Ho.
    by apply (step_all_pairs clean nonempty_value clean_set clean_unset). }
  destruct c as [k v|k|k|v|v| | | | |]; simpl in He.
  - injection He as <- _. apply (Hstep (OSet k v)).
    by destruct (Hc k v eq_refl).
  - by injection He as <- _.
  - injection He as <- _. by apply (Hstep (OUnset k)).
  - by injection He as <- _.
  - by injection He as <- _.
  - injection He as <- _. by apply (Hstep OBegin).
  - destruct (InMemoryDB.rollback s) as [s1 o1] eqn:Hr.
    injection He as <- _. specialize (Hstep ORollback I). simpl in Hstep.
    by rewrite Hr in Hstep.
  - destruct (InMemoryDB.commit s) as [s1 o1] eqn:Hr.
    injection He as <- _. specialize (Hstep OCommit I). simpl in Hstep.
    by rewrite Hr in Hstep.
  - done.
  - by injection He as <- _.
Qed.

Lemma main_loop_clean (lines : list string) (s : InMemoryDB.t) :
  Forall clean (all_pairs s) → Forall clean (all_pairs (main_loop lines s).1).
Proof.
  revert s. induction lines as [|line lines IH]; intros s Hs; simpl; [done|].
  destruct (parse line) as [c|] eqn:Hp; [|by apply IH].
  destruct (execute c s) as [s' out|] eqn:He; [|done].
  specialize (IH s' (execute_clean c s s' out
    (λ k v Hc, parse_set line k v (eq_trans Hp (f_equal Some Hc))) He Hs)).
  by destruct (main_loop lines s').
Qed.

(** X17. After any session whatsoever the counter of every value is the
    number of keys that hold it. *)
Lemma main_index_consistent (lines : list string) (v : string) :
  InMemoryDB.counts_value v (main lines).1
  = Z.of_nat (holders (InMemoryDB._db (main lines).1) v).
Proof.
  pose proof (main_loop_clean lines InMemoryDB.init clean_init) as Hall.
  apply Forall_inv in Hall. destruct Hall as [Hc _]. apply Hc.
Qed.
End session.

(** ** A session *)

(** The end-to-end scenario: the lines printed for the commands, then the
    farewell at the end of the input. *)
Example session_scenario :
  (main ["SET a 10"; "GET a"; "SET b 20"; "COUNTS 10"; "BEGIN"; "SET a 20";
         "COUNTS 20"; "FIND 20"; "ROLLBACK"; "COUNTS 20"; "GET a"]).2
  = ["10"; "1"; "2"; "a b"; "1"; "10"; String "010" "Завершено по EOF."].
Proof. by vm_compute. Qed.

(** Verbs are matched without regard to case, and END stops the session
    before the lines that follow it. *)
Example session_end :
  (main ["set a 1"; "  get   a  "; ""; "nop"; "get"; "End"; "GET a"]).2
  = ["1"; "UNKNOWN COMMAND"; "UNKNOWN COMMAND"].
Proof. by vm_compute. Qed.

(** * Further properties of the store *)

Section store.
Import InMemoryDB.
Implicit Types (s : t) (k v w : string).

Lemma length_matching_keys v s :
  length (matching_keys v s) = holders (_db s) v.
Proof.
  unfold holders. rewrite <-length_map_to_list.
  rewrite <-(length_fmap fst (map_to_list (filter _ (_db s)))).
  apply Permutation_length, NoDup_Permutation.
  - apply NoDup_matching_keys.
  - apply NoDup_fst_map_to_list.
  - intros k. rewrite elem_of_matching_keys. unfold get.
    rewrite list_elem_of_fmap. split.
    + intros Hk. exists (k, v). split; [done|].
      apply elem_of_map_to_list, map_lookup_filter_Some. by split.
    + intros [[k' x] [-> H]].
      apply elem_of_map_to_list, map_lookup_filter_Some in H as [Hk Hx].
      simpl in *. by subst x.
Qed.

Lemma find_sorted v s :
  find v s
  = [match sorted (matching_keys v s) with
     | [] => "NULL"
     | _ :: _ => join (sorted (matching_keys v s))
     end].
Proof.
  unfold find. destruct (matching_keys v s) as [|k l] eqn:Hm; [done|].
  destruct (sorted (k :: l)) as [|k' l'] eqn:Hs; [|done].
  exfalso. pose proof (merge_sort_Permutation String.le (k :: l)) as Hp.
  unfold sorted in Hs. rewrite Hs in Hp.
  by apply Permutation_nil_cons in Hp.
Qed.

Lemma run_app ops1 ops2 s : run (ops1 ++ ops2) s = run ops2 (run ops1 s).
Proof. apply foldl_app. Qed.

Lemma depth_step s o :
  keeps_history o →
  step s o = s ∨ (depth (step s o) = S (depth s) ∧ run [ORollback] (step s o) = s).
Proof.
  intros Ho. unfold run. destruct o as [k v|k| | |]; cbn [foldl step];
    try (by destruct Ho).
  - right. split; [done|]. by rewrite rollback_set.
  - destruct (get k s) as [o|] eqn:Hk.
    + right. split.
      * unfold depth. rewrite history_unset_present; [done|by eexists].
      * by rewrite rollback_unset_present by (by eexists).
    + left. by apply unset_absent.
  - right. split; [done|]. by rewrite rollback_begin.
Qed.
End store.

(** X1. What [set] stores is what [get] returns: after [set(k, v)] the key
    [k] reads as [v] and every other key reads as before. *)
Theorem get_after_set (s : InMemoryDB.t) (k v k' : string) :
  InMemoryDB.get k' (InMemoryDB.set k v s)
  = if decide (k' = k) then Some v else InMemoryDB.get k' s.
Proof.
  unfold InMemoryDB.get, InMemoryDB.set. simpl. case_decide as Hk.
  - subst. apply lookup_insert_eq.
  - by apply lookup_insert_ne.
Qed.

(** X2. After [unset(k)] the key [k] is absent, whether or not it was
    present, and every other key reads as before. *)
Theorem get_after_unset (s : InMemoryDB.t) (k k' : string) :
  InMemoryDB.get k' (InMemoryDB.unset k s)
  = if decide (k' = k) then None else InMemoryDB.get k' s.
Proof.
  unfold InMemoryDB.get, InMemoryDB.unset.
  destruct (InMemoryDB._db s !! k) as [o|] eqn:Hk; simpl.
  - case_decide as Hkk.
    + subst. apply lookup_delete_eq.
    + by apply lookup_delete_ne.
  - case_decide; by subst.
Qed.

(** X3. Setting a key that is absent and unsetting it again leaves the
    mapping and every counter reading as they were, so no query can tell
    the difference, while the history has grown by two snapshots. *)
Theorem unset_after_set_fresh (s : InMemoryDB.t) (k v : string) :
  InMemoryDB.get k s = None →
  let s' := InMemoryDB.unset k (InMemoryDB.set k v s) in
  InMemoryDB._db s' = InMemoryDB._db s
  ∧ (∀ w, InMemoryDB.counts_value w s' = InMemoryDB.counts_value w s)
  ∧ (∀ w, InMemoryDB.find w s' = InMemoryDB.find w s)
  ∧ depth s' = S (S (depth s)).
Proof.
  intros Hk s'. unfold InMemoryDB.get in Hk.
  assert (InMemoryDB._db s' = InMemoryDB._db s) as Hdb.
  { unfold s', InMemoryDB.unset, InMemoryDB.set. simpl.
    rewrite lookup_insert_eq. simpl. rewrite delete_insert_eq.
    by apply delete_id. }
  split; [done|]. split; [|split].
  - intros w. unfold s', InMemoryDB.unset, InMemoryDB.set,
      InMemoryDB.counts_value. simpl.
    rewrite lookup_insert_eq, Hk. simpl.
    match goal with |- default 0 (?c !! w) = _ => fold (InMemoryDB.read c w) end.
    rewrite !read_add. unfold InMemoryDB.read. case_decide; lia.
  - intros w. unfold InMemoryDB.find, InMemoryDB.matching_keys.
    by rewrite Hdb.
  - unfold s', depth, InMemoryDB.unset, InMemoryDB.set. simpl.
    by rewrite lookup_insert_eq.
Qed.

Lemma unset_after_set_fresh_witness :
  InMemoryDB.get "b" (InMemoryDB.set "a" "x" InMemoryDB.init) = None
  ∧ InMemoryDB.counts_value "x"
      (InMemoryDB.unset "b" (InMemoryDB.set "b" "x"
         (InMemoryDB.set "a" "x" InMemoryDB.init)))
    = InMemoryDB.counts_value "x" (InMemoryDB.set "a" "x" InMemoryDB.init).
Proof.
  assert (InMemoryDB.get "b" (InMemoryDB.set "a" "x" InMemoryDB.init) = None)
    as Hk by (by vm_compute).
  split; [exact Hk|].
  exact (proj1 (proj2 (unset_after_set_fresh
    (InMemoryDB.set "a" "x" InMemoryDB.init) "b" "x" Hk)) "x").
Defined.

(** X4. The history is an exact undo log: after any sequence of [set],
    [unset] and [begin] calls, as many [rollback] calls as snapshots were
    pushed give back the store the sequence started from, history
    included. *)
Theorem rollbacks_undo_pushes (ops : list op) (s : InMemoryDB.t) :
  Forall keeps_history ops →
  (depth s ≤ depth (run ops s))%nat
  ∧ run (replicate (depth (run ops s) - depth s) ORollback) (run ops s) = s.
Proof.
  intros Hok. revert s. induction Hok as [|o ops Ho _ IH]; intros s.
  - simpl. by rewrite Nat.sub_diag.
  - change (run (o :: ops) s) with (run ops (step s o)).
    destruct (IH (step s o)) as [Hle Hrun].
    destruct (depth_step s o Ho) as [Heq|[Hd Hr]].
    + by rewrite Heq in *.
    + split; [lia|].
      replace (depth (run ops (step s o)) - depth s)%nat
        with ((depth (run ops (step s o)) - depth (step s o)) + 1)%nat by lia.
      rewrite replicate_add, run_app, Hrun. exact Hr.
Qed.

Lemma rollbacks_undo_pushes_witness :
  Forall keeps_history [OBegin; OSet "a" "1"; OUnset "b"; OSet "a" "2";
                        OUnset "a"]
  ∧ run (replicate 4 ORollback)
      (run [OBegin; OSet "a" "1"; OUnset "b"; OSet "a" "2"; OUnset "a"]
         InMemoryDB.init)
    = InMemoryDB.init.
Proof.
  assert (Forall keeps_history
    [OBegin; OSet "a" "1"; OUnset "b"; OSet "a" "2"; OUnset "a"]) as Hok.
  { by repeat constructor. }
  split; [exact Hok|].
  exact (proj2 (rollbacks_undo_pushes _ InMemoryDB.init Hok)).
Defined.



(** * Further properties of the parser *)

Section tokens.
Import CommandParser.
Implicit Types (cur line w : string) (l : list string).

Lemma append_cons (a : ascii) w (r : string) :
  (String a w ++ r)%string = String a (w ++ r)%string.
Proof. reflexivity. Qed.

Lemma append_empty_r w : (w ++ "")%string = w.
Proof.
  induction w as [|a w IH]; [done|]. by rewrite append_cons, IH.
Qed.

Lemma rev_app_rev_app (a b c : string) :
  String.rev_app (String.rev_app a b) c = String.rev_app b (a ++ c)%string.
Proof.
  revert b c. induction a as [|x a IH]; intros b c; [done|].
  rewrite append_cons. simpl. by rewrite IH.
Qed.

Lemma rev_rev w : String.rev (String.rev w) = w.
Proof.
  unfold String.rev. rewrite rev_app_rev_app. simpl. apply append_empty_r.
Qed.

Lemma no_space_rev_app (a b : string) :
  no_space (String.rev_app a b) = no_space a && no_space b.
Proof.
  revert b. induction a as [|x a IH]; intros b; simpl; [done|].
  rewrite IH. simpl. by destruct (is_space x), (no_space a), (no_space b).
Qed.

Lemma flush_words cur : no_space cur = true → Forall word (flush cur).
Proof.
  intros Hc. destruct cur as [|a cur]; [constructor|].
  constructor; [|constructor]. split.
  - unfold String.rev. simpl. by apply rev_app_nonempty.
  - unfold String.rev. rewrite no_space_rev_app. by rewrite Hc.
Qed.

Lemma split_from_words cur line :
  no_space cur = true → Forall word (split_from cur line).
Proof.
  revert cur. induction line as [|a line IH]; intros cur Hc; simpl.
  - by apply flush_words.
  - destruct (is_space a) eqn:Ha.
    + apply Forall_app. split; [by apply flush_words|by apply IH].
    + apply IH. simpl. by rewrite Ha.
Qed.

Lemma split_from_word w cur rest :
  no_space w = true →
  split_from cur (w ++ rest) = split_from (String.rev_app w cur) rest.
Proof.
  revert cur. induction w as [|a w IH]; intros cur Hw; [done|].
  simpl in Hw. apply andb_prop in Hw as [Ha Hw].
  apply negb_true_iff in Ha. rewrite append_cons. simpl.
  rewrite Ha. by apply IH.
Qed.

Lemma flush_rev w : w ≠ "" → flush (String.rev w) = [w].
Proof.
  intros Hw. destruct w as [|a w]; [done|].
  pose proof (rev_app_nonempty w (String a "") ltac:(done)) as Hne.
  change (String.rev_app w (String a "")) with (String.rev (String a w)) in Hne.
  unfold flush. destruct (String.rev (String a w)) as [|b r] eqn:Hr; [done|].
  by rewrite <-Hr, rev_rev.
Qed.

Lemma split_from_concat w l :
  Forall word (w :: l) →
  split_from "" (String.concat " " (w :: l)) = w :: l.
Proof.
  revert w. induction l as [|w2 l IH]; intros w Hall.
  - apply Forall_inv in Hall as [Hne Hw]. simpl.
    rewrite <-(append_empty_r w) at 1. rewrite split_from_word by done.
    simpl. by apply flush_rev.
  - pose proof (Forall_inv Hall) as [Hne Hw].
    apply Forall_inv_tail in Hall.
    change (String.concat " " (w :: w2 :: l))
      with (w ++ String " " (String.concat " " (w2 :: l)))%string.
    rewrite split_from_word by done.
    change (String.rev_app w "") with (String.rev w).
    cbn [split_from]. change (is_space " ") with true. cbn iota.
    rewrite flush_rev by done. rewrite IH by done. done.
Qed.

Lemma split_from_nil cur line :
  split_from cur line = [] ↔ cur = "" ∧ blank line = true.
Proof.
  revert cur. induction line as [|a line IH]; intros cur; simpl.
  - destruct cur; simpl; split; try done. by intros [? _].
  - destruct (is_space a); simpl.
    + rewrite app_nil, IH. destruct cur; simpl; split; try done.
      * by intros [_ [_ ?]].
      * by intros [? _].
      * by intros [? _].
    + rewrite IH. split; [by intros [? _]|by intros [_ ?]].
Qed.

Lemma parse_None line : parse line = None ↔ blank line = true.
Proof.
  unfold parse, split. pose proof (split_from_nil "" line) as H.
  destruct (split_from "" line) as [|p0 rest].
  - split; [|done]. intros _. by apply H.
  - split; [done|]. intros Hb. discriminate (proj2 H (conj eq_refl Hb)).
Qed.
End tokens.

(** X6. Every word that [split] cuts out of a line has at least one
    character and contains no white space. *)
Theorem split_gives_words (line : string) :
  Forall word (CommandParser.split line).
Proof. by apply split_from_words. Qed.

(** X7. For a line of ASCII characters, [parse] returns [None] exactly
    when the line consists of white space only, the empty line included. *)
Theorem parse_blank_line (line : string) :
  is_ascii line = true →
  (CommandParser.parse line = None ↔ blank line = true).
Proof. intros _. apply parse_None. Qed.

Lemma parse_blank_line_witness :
  is_ascii (String "009" "  ") = true
  ∧ CommandParser.parse (String "009" "  ") = None.
Proof.
  assert (is_ascii (String "009" "  ") = true) as Ha by reflexivity.
  split; [exact Ha|].
  exact (proj2 (parse_blank_line (String "009" "  ") Ha) eq_refl).
Defined.

(** X8. Splitting undoes joining: a list of words of ASCII characters
    joined by single spaces, as [find] prints its keys, is split back into
    the same words. *)
Theorem split_join (l : list string) :
  Forall ascii_word l → CommandParser.split (InMemoryDB.join l) = l.
Proof.
  intros Hall. destruct l as [|w l]; [done|].
  apply split_from_concat. eapply Forall_impl; [exact Hall|].
  by intros x [Hx _].
Qed.

Lemma split_join_witness :
  Forall ascii_word ["alpha"; "b"; "c3"]
  ∧ CommandParser.split (InMemoryDB.join ["alpha"; "b"; "c3"])
    = ["alpha"; "b"; "c3"].
Proof.
  assert (Forall ascii_word ["alpha"; "b"; "c3"]) as Hall.
  { repeat (apply Forall_cons_2;
      [split; [split; [discriminate|reflexivity]|reflexivity]|]).
    apply Forall_nil_2. }
  split; [exact Hall|]. exact (split_join _ Hall).
Defined.

(** X9. A well-formed command line of ASCII characters is parsed into the
    command it spells: the verb in any mix of cases followed by the right
    number of words, separated by single spaces, gives the command with
    those words as its arguments. *)
Theorem parse_well_formed (verb k v : string) :
  ascii_word verb → ascii_word k → ascii_word v →
  (CommandParser.upper verb = "SET" →
     CommandParser.parse (InMemoryDB.join [verb; k; v])
     = Some (SetCommand k v))
  ∧ (CommandParser.upper verb = "GET" →
     CommandParser.parse (InMemoryDB.join [verb; k]) = Some (GetCommand k))
  ∧ (CommandParser.upper verb = "UNSET" →
     CommandParser.parse (InMemoryDB.join [verb; k]) = Some (UnsetCommand k))
  ∧ (CommandParser.upper verb = "COUNTS" →
     CommandParser.parse (InMemoryDB.join [verb; v]) = Some (CountsCommand v))
  ∧ (CommandParser.upper verb = "FIND" →
     CommandParser.parse (InMemoryDB.join [verb; v]) = Some (FindCommand v)).
Proof.
  intros [Hverb _] [Hk _] [Hv _].
  assert (∀ l, Forall word l →
    CommandParser.parse (InMemoryDB.join (verb :: l))
    = Some (CommandParser.dispatch (CommandParser.upper verb) (verb :: l)))
    as Hp.
  { intros l Hl. unfold CommandParser.parse, CommandParser.split,
      InMemoryDB.join. rewrite split_from_concat; [done|by constructor]. }
  repeat split; intros Hu;
    (rewrite Hp;
      [by rewrite Hu
      |repeat (apply Forall_cons_2; [assumption|]); apply Forall_nil_2]).
Qed.

Lemma parse_well_formed_witness :
  ascii_word "sEt" ∧ ascii_word "key" ∧ ascii_word "42"
  ∧ CommandParser.upper "sEt" = "SET"
  ∧ CommandParser.parse (InMemoryDB.join ["sEt"; "key"; "42"])
    = Some (SetCommand "key" "42").
Proof.
  assert (ascii_word "sEt") as H1
    by (split; [split; [discriminate|reflexivity]|reflexivity]).
  assert (ascii_word "key") as H2
    by (split; [split; [discriminate|reflexivity]|reflexivity]).
  assert (ascii_word "42") as H3
    by (split; [split; [discriminate|reflexivity]|reflexivity]).
  split; [exact H1|]. split; [exact H2|]. split; [exact H3|].
  split; [reflexivity|].
  exact (proj1 (parse_well_formed "sEt" "key" "42" H1 H2 H3) eq_refl).
Defined.

(** * Further properties of sessions *)

Section sessions.
Import CommandParser.
Implicit Types (lines : list string) (s : InMemoryDB.t) (c : Command).

Lemma execute_query c s :
  is_query c = true → ∃ out, execute c s = Returns s out.
Proof. destruct c; simpl; try discriminate; eauto. Qed.

Lemma execute_returns c s :
  c ≠ EndCommand → ∃ s' out, execute c s = Returns s' out.
Proof.
  intros Hc. destruct c; simpl; eauto; [| |done].
  - destruct (InMemoryDB.rollback s); eauto.
  - destruct (InMemoryDB.commit s); eauto.
Qed.

Lemma main_loop_cons_returns line lines c s s' out :
  parse line = Some c → execute c s = Returns s' out →
  main_loop (line :: lines) s
  = ((main_loop lines s').1, (out ++ (main_loop lines s').2)%list).
Proof.
  intros Hp He. simpl. rewrite Hp, He. by destruct (main_loop lines s').
Qed.

Lemma commit_history s : InMemoryDB._history (InMemoryDB.commit s).1 = [].
Proof.
  unfold InMemoryDB.commit. by destruct (InMemoryDB._history s) eqn:Hh.
Qed.
End sessions.

(** X10. Once [commit] has run, no number of [rollback] calls changes the
    store: the mapping and the counter stay those that were committed. *)
Theorem rollback_after_commit (s : InMemoryDB.t) (n : nat) :
  run (replicate n ORollback) (run [OCommit] s) = run [OCommit] s
  ∧ InMemoryDB._db (run [OCommit] s) = InMemoryDB._db s
  ∧ InMemoryDB._counts (run [OCommit] s) = InMemoryDB._counts s.
Proof.
  split.
  - induction n as [|n IH]; [done|].
    change (replicate (S n) ORollback)
      with ([ORollback] ++ replicate n ORollback)%list.
    rewrite run_app.
    assert (run [ORollback] (run [OCommit] s) = run [OCommit] s) as ->; [|done].
    unfold run. cbn [foldl step]. unfold InMemoryDB.rollback.
    by rewrite commit_history.
  - unfold run. cbn [foldl step]. unfold InMemoryDB.commit.
    by destruct (InMemoryDB._history s).
Qed.

(** X11. After any session, [FIND v] lists as many keys as [COUNTS v]
    prints: the keys joined by [find] are pairwise distinct, they are the
    keys that hold [v], and their number is the counter of [v]. *)
Theorem find_lists_counted_keys (lines : list string) (v : string) :
  let s := (main lines).1 in
  ∃ keys : list string,
    (∀ k, k ∈ keys ↔ InMemoryDB.get k s = Some v)
    ∧ NoDup keys
    ∧ Z.of_nat (length keys) = InMemoryDB.counts_value v s
    ∧ InMemoryDB.find v s
      = [match keys with [] => "NULL" | _ :: _ => InMemoryDB.join keys end].
Proof.
  intros s. exists (InMemoryDB.sorted (InMemoryDB.matching_keys v s)).
  pose proof (merge_sort_Permutation String.le (InMemoryDB.matching_keys v s))
    as Hp. fold (InMemoryDB.sorted (InMemoryDB.matching_keys v s)) in Hp.
  split; [|split; [|split]].
  - intros k. rewrite Hp. apply elem_of_matching_keys.
  - rewrite Hp. apply NoDup_matching_keys.
  - rewrite Hp, length_matching_keys.
    pose proof (main_loop_clean lines InMemoryDB.init clean_init) as Hall.
    apply Forall_inv in Hall. destruct Hall as [Hc _]. symmetry. apply Hc.
  - apply find_sorted.
Qed.

(** X12. The line that parses to [EndCommand] ends the session: whatever
    lines follow it, they are not read, and no farewell is printed for
    them. *)
Theorem end_stops_session (l1 l2 : list string) (e : string)
    (s : InMemoryDB.t) :
  CommandParser.parse e = Some EndCommand →
  main_loop (l1 ++ e :: l2) s = main_loop (l1 ++ [e]) s.
Proof.
  intros He. revert s. induction l1 as [|line l1 IH]; intros s.
  - simpl. by rewrite He.
  - simpl. destruct (CommandParser.parse line) as [c|]; [|apply IH].
    destruct (execute c s) as [s' out|]; [|done]. by rewrite IH.
Qed.

Lemma end_stops_session_witness :
  CommandParser.parse "end" = Some EndCommand
  ∧ main_loop (["SET a 1"] ++ "end" :: ["GET a"; "SET a 2"]) InMemoryDB.init
    = main_loop (["SET a 1"] ++ ["end"]) InMemoryDB.init.
Proof.
  assert (CommandParser.parse "end" = Some EndCommand) as He
    by (by vm_compute).
  split; [exact He|].
  exact (end_stops_session ["SET a 1"] ["GET a"; "SET a 2"] "end"
           InMemoryDB.init He).
Defined.



(** X14. The lines of ASCII characters that are GET, COUNTS or FIND
    commands, or that are answered with UNKNOWN COMMAND, never change the
    store: a session with such a line ends in the same store, history
    included, as the session without it. *)
Theorem query_keeps_store (l1 l2 : list string) (q : string) (c : Command)
    (s : InMemoryDB.t) :
  is_ascii q = true →
  CommandParser.parse q = Some c → is_query c = true →
  (main_loop (l1 ++ q :: l2) s).1 = (main_loop (l1 ++ l2) s).1.
Proof.
  intros _ Hq Hc. revert s. induction l1 as [|line l1 IH]; intros s.
  - destruct (execute_query c s Hc) as [out He].
    change (([] ++ q :: l2)%list) with (q :: l2).
    by rewrite (main_loop_cons_returns q l2 c s s out Hq He).
  - simpl. destruct (CommandParser.parse line) as [c'|]; [|apply IH].
    destruct (execute c' s) as [s' out|]; [|done].
    specialize (IH s').
    destruct (main_loop (l1 ++ q :: l2) s'), (main_loop (l1 ++ l2) s').
    by simpl in *.
Qed.

Lemma query_keeps_store_witness :
  is_ascii "FIND 1" = true
  ∧ CommandParser.parse "FIND 1" = Some (FindCommand "1")
  ∧ is_query (FindCommand "1") = true
  ∧ (main_loop (["SET a 1"; "BEGIN"] ++ "FIND 1" :: ["SET b 1"])
       InMemoryDB.init).1
    = (main_loop (["SET a 1"; "BEGIN"] ++ ["SET b 1"]) InMemoryDB.init).1.
Proof.
  assert (CommandParser.parse "FIND 1" = Some (FindCommand "1")) as Hq
    by (by vm_compute).
  split; [reflexivity|]. split; [exact Hq|]. split; [reflexivity|].
  exact (query_keeps_store ["SET a 1"; "BEGIN"] ["SET b 1"] "FIND 1"
           (FindCommand "1") InMemoryDB.init eq_refl Hq eq_refl).
Defined.

(** X15. When the input, lines of ASCII characters, runs out before any
    END line, the last line the session prints is the farewell of the
    [EOFError] handler. *)
Theorem farewell_at_end_of_input (lines : list string) (s : InMemoryDB.t) :
  Forall (λ line, is_ascii line = true) lines →
  Forall (λ line, CommandParser.parse line ≠ Some EndCommand) lines →
  last (main_loop lines s).2 = Some farewell.
Proof.
  intros _ Hall. revert s. induction Hall as [|line lines Hl _ IH]; intros s.
  - done.
  - destruct (CommandParser.parse line) as [c|] eqn:Hp.
    + assert (c ≠ EndCommand) as Hc by (intros ->; by apply Hl).
      destruct (execute_returns c s Hc) as (s' & out & He).
      rewrite (main_loop_cons_returns line lines c s s' out Hp He).
      cbn [snd]. rewrite last_app, (IH s'). done.
    + simpl. rewrite Hp. apply IH.
Qed.

Lemma farewell_at_end_of_input_witness :
  Forall (λ line, is_ascii line = true) ["SET a 1"; ""; "GET a"; "ENDING"]
  ∧ Forall (λ line, CommandParser.parse line ≠ Some EndCommand)
    ["SET a 1"; ""; "GET a"; "ENDING"]
  ∧ last (main_loop ["SET a 1"; ""; "GET a"; "ENDING"] InMemoryDB.init).2
    = Some farewell.
Proof.
  assert (Forall (λ line, CommandParser.parse line ≠ Some EndCommand)
            ["SET a 1"; ""; "GET a"; "ENDING"]) as Hall.
  { repeat apply Forall_cons_2; try apply Forall_nil_2;
      vm_compute; discriminate. }
  assert (Forall (λ line, is_ascii line = true)
            ["SET a 1"; ""; "GET a"; "ENDING"]) as Hasc.
  { repeat apply Forall_cons_2; try apply Forall_nil_2; reflexivity. }
  split; [exact Hasc|]. split; [exact Hall|].
  exact (farewell_at_end_of_input _ InMemoryDB.init Hasc Hall).
Defined.

(** X16. Through the whole program, from the input line to the printed
    line: [SET k v] followed by [GET k] prints [v], and [UNSET k] followed
    by [GET k] prints NULL, for every key and value that are words of
    ASCII characters and from every store. *)
Theorem session_set_get (k v : string) (s : InMemoryDB.t) :
  ascii_word k → ascii_word v →
  main_loop [InMemoryDB.join ["SET"; k; v]; InMemoryDB.join ["GET"; k]] s
  = (InMemoryDB.set k v s, [v; farewell])
  ∧ main_loop [InMemoryDB.join ["UNSET"; k]; InMemoryDB.join ["GET"; k]] s
    = (InMemoryDB.unset k s, ["NULL"; farewell]).
Proof.
  intros [Hk _] [Hv _].
  assert (∀ verb l, word verb → Forall word l →
    CommandParser.parse (InMemoryDB.join (verb :: l))
    = Some (CommandParser.dispatch (CommandParser.upper verb) (verb :: l)))
    as Hp.
  { intros verb l Hverb Hl. unfold CommandParser.parse, CommandParser.split,
      InMemoryDB.join. rewrite split_from_concat; [done|by constructor]. }
  assert (∀ verb, verb ≠ "" → no_space verb = true → word verb) as Hw
    by (by split).
  assert (CommandParser.parse (InMemoryDB.join ["SET"; k; v])
          = Some (SetCommand k v)) as Hset.
  { rewrite Hp; [done|by apply Hw|].
    repeat (apply Forall_cons_2; [assumption|]); apply Forall_nil_2. }
  assert (CommandParser.parse (InMemoryDB.join ["GET"; k])
          = Some (GetCommand k)) as Hget.
  { rewrite Hp; [done|by apply Hw|].
    repeat (apply Forall_cons_2; [assumption|]); apply Forall_nil_2. }
  assert (CommandParser.parse (InMemoryDB.join ["UNSET"; k])
          = Some (UnsetCommand k)) as Hunset.
  { rewrite Hp; [done|by apply Hw|].
    repeat (apply Forall_cons_2; [assumption|]); apply Forall_nil_2. }
  assert (InMemoryDB.get k (InMemoryDB.set k v s) = Some v) as Hgs.
  { unfold InMemoryDB.get, InMemoryDB.set. cbn [InMemoryDB._db].
    apply lookup_insert_eq. }
  assert (InMemoryDB.get k (InMemoryDB.unset k s) = None) as Hgu.
  { unfold InMemoryDB.get, InMemoryDB.unset.
    destruct (InMemoryDB._db s !! k) eqn:Hl; [|done].
    cbn [InMemoryDB._db]. apply lookup_delete_eq. }
  split.
  - rewrite (main_loop_cons_returns _ _ _ s _ [] Hset eq_refl).
    assert (execute (GetCommand k) (InMemoryDB.set k v s)
            = Returns (InMemoryDB.set k v s) [v]) as He.
    { unfold execute. by rewrite Hgs. }
    by rewrite (main_loop_cons_returns _ _ _ _ _ _ Hget He).
  - rewrite (main_loop_cons_returns _ _ _ s _ [] Hunset eq_refl).
    assert (execute (GetCommand k) (InMemoryDB.unset k s)
            = Returns (InMemoryDB.unset k s) ["NULL"]) as He.
    { unfold execute. by rewrite Hgu. }
    by rewrite (main_loop_cons_returns _ _ _ _ _ _ Hget He).
Qed.

Lemma session_set_get_witness :
  ascii_word "colour" ∧ ascii_word "red"
  ∧ main_loop [InMemoryDB.join ["SET"; "colour"; "red"];
               InMemoryDB.join ["GET"; "colour"]] InMemoryDB.init
    = (InMemoryDB.set "colour" "red" InMemoryDB.init, ["red"; farewell]).
Proof.
  assert (ascii_word "colour") as H1
    by (split; [split; [discriminate|reflexivity]|reflexivity]).
  assert (ascii_word "red") as H2
    by (split; [split; [discriminate|reflexivity]|reflexivity]).
  split; [exact H1|]. split; [exact H2|].
  exact (proj1 (session_set_get "colour" "red" InMemoryDB.init H1 H2)).
Defined.

(** * Overwriting a key that holds the empty string *)

Section empty_string.
Import InMemoryDB.
Implicit Types (s : t) (k v : string) (base : nat).

Lemma inflated_push base s s' :
  inflated base s →
  _history s' = current s :: _history s →
  excess (current s) "" ≤ excess (current s') "" →
  inflated (Nat.min base (depth s')) s'.
Proof.
  intros (Hb & He & Hh) Hs' Hle.
  assert (depth s' = S (depth s)) as Hd by (unfold depth; by rewrite Hs').
  unfold inflated. rewrite Hd, Nat.min_l by lia.
  split; [lia|]. split; [lia|].
  rewrite Hs'. replace (S (depth s) - base)%nat with (S (depth s - base)) by lia.
  simpl. by constructor.
Qed.

Lemma inflated_same base s : inflated base s → inflated (Nat.min base (depth s)) s.
Proof. intros H. pose proof H as (Hb & _). by rewrite Nat.min_l. Qed.

Lemma inflated_step base s o :
  inflated base s →
  match o with
  | ORollback => (base <? depth s)%nat || (depth s =? 0)%nat
  | _ => true
  end = true →
  inflated (Nat.min base (depth (step s o))) (step s o).
Proof.
  intros Hi Ho. pose proof Hi as (Hb & He & Hh).
  destruct o as [k v|k| | |]; cbn [step].
  - apply (inflated_push base s); [done|done|].
    rewrite excess_set. unfold indicator. case_decide; lia.
  - destruct (get k s) as [o|] eqn:Hk.
    + apply (inflated_push base s); [done| |by rewrite excess_unset].
      apply history_unset_present. by eexists.
    + rewrite (unset_absent k s Hk). by apply inflated_same.
  - by apply (inflated_push base s).
  - unfold rollback, depth in *.
    destruct (_history s) as [|[d c] h] eqn:Hs; cbn [fst].
    + change (length (_history s)) with (depth s). apply inflated_same.
      unfold inflated, depth. by rewrite Hs.
    + simpl in *. apply orb_prop in Ho as [Ho|Ho]; [|done].
      apply Nat.ltb_lt in Ho. rewrite Nat.min_l by lia.
      replace (S (length h) - base)%nat with (S (length h - base)) in Hh by lia.
      simpl in Hh. apply Forall_cons in Hh as [Hp Hh].
      unfold inflated, depth. simpl. split; [lia|]. by split.
  - unfold commit, depth in *.
    destruct (_history s) as [|p h] eqn:Hs; cbn [fst].
    + change (length (_history s)) with (depth s). apply inflated_same.
      unfold inflated, depth. by rewrite Hs.
    + simpl. rewrite Nat.min_0_r. unfold inflated, depth. simpl.
      split; [lia|]. split; [done|]. by constructor.
Qed.

Lemma inflated_run base ops s :
  inflated base s → spares base ops s = true →
  1 ≤ excess (current (run ops s)) "".
Proof.
  revert base s. induction ops as [|o ops IH]; intros base s Hi Hsp.
  - by destruct Hi as (_ & He & _).
  - simpl in Hsp. apply andb_prop in Hsp as [Ho Hsp].
    change (run (o :: ops) s) with (run ops (step s o)).
    apply (IH (Nat.min base (depth (step s o)))); [|done].
    by apply inflated_step.
Qed.

Lemma inflated_after_overwrite ops0 k v :
  get k (run ops0 init) = Some "" →
  inflated (depth (set k v (run ops0 init))) (set k v (run ops0 init)).
Proof.
  intros Hk. split; [done|]. split.
  - rewrite excess_set. unfold indicator. rewrite decide_True by done.
    pose proof (run_counted ops0 _ counted_init) as Hall.
    apply Forall_inv in Hall. specialize (Hall ""). lia.
  - rewrite Nat.sub_diag. by constructor.
Qed.
End empty_string.

(** C10, as amended. [set] decrements the counter of the old value if and
    only if the key was present with a non-empty old value.  Overwriting a
    key that holds the empty string therefore leaves the counter of the
    empty string above the number of its holders, which violates index
    consistency, and the counter stays above it through every later
    sequence of operations whose rollbacks pop only snapshots pushed after
    the overwrite (or find the history empty).  After [set(k, "")],
    [set(k, "x")] on a fresh store the counter is 1 and no key holds the
    empty string. *)
Theorem set_skips_empty_old_value :
  (∀ (s : InMemoryDB.t) (k v w : string),
     InMemoryDB.counts_value w (InMemoryDB.set k v s)
     = InMemoryDB.counts_value w s
       - indicator (InMemoryDB.get k s = Some w ∧ w ≠ "")
       + indicator (v = w))
  ∧ (∀ (ops0 : list op) (k v : string),
       InMemoryDB.get k (run ops0 InMemoryDB.init) = Some "" →
       let s := InMemoryDB.set k v (run ops0 InMemoryDB.init) in
       ∀ ops, spares (depth s) ops s = true →
         Z.of_nat (holders (InMemoryDB._db (run ops s)) "")
         < InMemoryDB.counts_value "" (run ops s))
  ∧ (let s := run [OSet "k" ""; OSet "k" "x"] InMemoryDB.init in
     InMemoryDB.counts_value "" s = 1
     ∧ holders (InMemoryDB._db s) "" = 0%nat).
Proof.
  split; [intros; apply counts_set|]. split; [|by vm_compute].
  intros ops0 k v Hk s ops Hsp.
  pose proof (inflated_run _ ops s (inflated_after_overwrite ops0 k v Hk) Hsp)
    as He.
  unfold excess, current in He. simpl in He.
  unfold InMemoryDB.counts_value. unfold InMemoryDB.read in He. lia.
Qed.

Lemma set_skips_empty_old_value_witness :
  InMemoryDB.get "k" (run [OBegin; OSet "k" ""] InMemoryDB.init) = Some ""
  ∧ spares
      (depth (InMemoryDB.set "k" "x" (run [OBegin; OSet "k" ""] InMemoryDB.init)))
      [OSet "j" ""; OBegin; OUnset "j"; ORollback; ORollback; OCommit;
       ORollback; OSet "k" "y"]
      (InMemoryDB.set "k" "x" (run [OBegin; OSet "k" ""] InMemoryDB.init))
    = true
  ∧ Z.of_nat (holders (InMemoryDB._db
        (run [OSet "j" ""; OBegin; OUnset "j"; ORollback; ORollback; OCommit;
              ORollback; OSet "k" "y"]
           (InMemoryDB.set "k" "x"
              (run [OBegin; OSet "k" ""] InMemoryDB.init)))) "")
    < InMemoryDB.counts_value ""
        (run [OSet "j" ""; OBegin; OUnset "j"; ORollback; ORollback; OCommit;
              ORollback; OSet "k" "y"]
           (InMemoryDB.set "k" "x"
              (run [OBegin; OSet "k" ""] InMemoryDB.init))).
Proof.
  assert (InMemoryDB.get "k" (run [OBegin; OSet "k" ""] InMemoryDB.init)
          = Some "") as Hk by (by vm_compute).
  assert (spares
      (depth (InMemoryDB.set "k" "x" (run [OBegin; OSet "k" ""] InMemoryDB.init)))
      [OSet "j" ""; OBegin; OUnset "j"; ORollback; ORollback; OCommit;
       ORollback; OSet "k" "y"]
      (InMemoryDB.set "k" "x" (run [OBegin; OSet "k" ""] InMemoryDB.init))
    = true) as Hsp by (by vm_compute).
  split; [exact Hk|]. split; [exact Hsp|].
  exact (proj1 (proj2 set_skips_empty_old_value)
           [OBegin; OSet "k" ""] "k" "x" Hk _ Hsp).
Defined.

(** The claim as worded fails: the inflated counter is not permanent.
    After [set(k, ""); set(k, "x")] one [rollback] pops the snapshot taken
    before the overwrite, and the counter of the empty string is again the
    number of its holders, namely 1. *)
Lemma inflated_count_not_permanent :
  ¬ (∀ ops : list op,
       Z.of_nat (holders (InMemoryDB._db
           (run ops (run [OSet "k" ""; OSet "k" "x"] InMemoryDB.init))) "")
       < InMemoryDB.counts_value ""
           (run ops (run [OSet "k" ""; OSet "k" "x"] InMemoryDB.init))).
Proof.
  intros H. specialize (H [ORollback]). vm_compute in H. discriminate H.
Qed.
